(** * pipefunc: forward pipelines, reverse pipelines and value pipes

    A shallow embedding of [src/main.ts].  The library hands closures back to
    its caller; each closure is represented here by the data it captures, and
    the closure's body by a function named [<Closure>_call].

    The arrays that the builders keep ([pipeline], [previous], [next]) are
    JavaScript objects with identity, so they live in a store of arrays: a
    builder captures the address of its array, and every spread expression
    [[...previous, func]] allocates a new one.  User supplied functions are
    opaque: they receive an argument list, may read and write an ambient
    world, and either return a value or throw one.  Each invocation of a user
    function is recorded in a call log, in the way a test double records its
    calls. *)

From Stdlib Require Import List Arith ZArith Lia Bool.
Import ListNotations.

Set Implicit Arguments.

Reserved Notation "x <- m ;; k"
  (at level 61, m at next level, right associativity).

Section Pipefunc.

(** JavaScript values as user functions see them. *)
Variable V : Type.
(** The value [undefined], produced by an out-of-range array read. *)
Variable undefined : V.
(** Whatever state user functions may observe and change. *)
Variable W : Type.

(** ** Outcomes, user functions, machine state *)

(** A call either returns or throws; JavaScript can throw any value. *)
Inductive Res (A : Type) : Type :=
| Ret (a : A)
| Throw (x : V).
Arguments Ret {A} a.
Arguments Throw {A} x.

(** [AnyFunction]: a user function, with its [length] property (the
    declared parameter count) and its behaviour on an argument list. *)
Record Fn : Type := mkFn {
  flength : nat;
  fbody : list V -> W -> Res V * W
}.

Definition addr := nat.

Record State : Type := mkState {
  heap : list (list Fn);        (* the arrays allocated so far *)
  world : W;                    (* state owned by user code *)
  calls : list (Fn * list V)    (* user functions invoked, oldest first *)
}.

Definition M (A : Type) : Type := State -> Res A * State.

Definition ret {A} (a : A) : M A := fun s => (Ret a, s).

Definition bind {A B} (m : M A) (k : A -> M B) : M B :=
  fun s =>
    match m s with
    | (Ret a, s') => k a s'
    | (Throw x, s') => (Throw x, s')
    end.

Notation "x <- m ;; k" := (bind m (fun x => k)).

(** An array literal: a new array at a fresh address. *)
Definition alloc (xs : list Fn) : M addr :=
  fun s => (Ret (length (heap s)),
            mkState (heap s ++ [xs]) (world s) (calls s)).

(** Reading the elements of an array (what a spread or [reduce] does). *)
Definition readArr (p : addr) : M (list Fn) :=
  fun s => (Ret (nth p (heap s) []), s).

(** [func(...args)] for a user function. *)
Definition invoke (func : Fn) (args : list V) : M V :=
  fun s =>
    let (r, w') := fbody func args (world s) in
    (r, mkState (heap s) w' (calls s ++ [(func, args)])).

(** ** Arguments of a builder call

    The parameter of every builder closure is declared [func?: ...]: the
    caller passes a function, [undefined], [null], or nothing at all.  A
    parameter without an argument is bound to [undefined]. *)
Inductive Arg : Type :=
| Undefined
| Null
| Fun (f : Fn).

Definition param0 (args : list Arg) : Arg := nth 0 args Undefined.

(** The loose comparison [x == null]: true of [undefined] and [null] only.
    The closures below branch on it ([func != null], [func == null]); the
    branch taken for a function is the one that needs it as a function. *)
Definition eq_null (x : Arg) : bool :=
  match x with
  | Undefined | Null => true
  | Fun _ => false
  end.

(** ** makeExec *)

(** The closure [(...args) => pipeline.reduce(...)[0]] captures [pipeline]. *)
Record Exec : Type := mkExec { ex_pipeline : addr }.

Definition makeExec (pipeline : addr) : Exec := mkExec pipeline.

(** [pipeline.reduce((args, func) => [func(...args)], args)]: the
    accumulator is an argument list, replaced by a one-element list at
    every stage. *)
Fixpoint reduce (fs : list Fn) (args : list V) : M (list V) :=
  match fs with
  | [] => ret args
  | func :: rest => r <- invoke func args ;; reduce rest [r]
  end.

Definition Exec_call (e : Exec) (args : list V) : M V :=
  fs <- readArr (ex_pipeline e) ;;
  acc <- reduce fs args ;;
  ret (nth 0 acc undefined).

(** ** Forward pipeline *)

Record PipelineBuilder : Type := mkPipelineBuilder { pb_pipeline : addr }.

Inductive FwdResult : Type :=
| FwdBuilder (b : PipelineBuilder)
| FwdExec (e : Exec).

(** [previous = []] is a default parameter: without it a new empty array
    is made at each call. *)
Definition pipelineBuilder (func : Fn) (previous : option addr)
  : M PipelineBuilder :=
  previous <- match previous with
              | Some p => ret p
              | None => alloc []
              end ;;
  prev <- readArr previous ;;
  pipeline <- alloc (prev ++ [func]) ;;
  ret (mkPipelineBuilder pipeline).

Definition pipeline (func : Fn) : M PipelineBuilder :=
  pipelineBuilder func None.

Definition PipelineBuilder_call (b : PipelineBuilder) (args : list Arg)
  : M FwdResult :=
  match param0 args with
  | Fun func =>                                  (* func != null *)
      b' <- pipelineBuilder func (Some (pb_pipeline b)) ;;
      ret (FwdBuilder b')
  | Undefined | Null =>
      ret (FwdExec (makeExec (pb_pipeline b)))
  end.

(** ** Reverse pipeline *)

Record ReversePipelineBuilder : Type :=
  mkReversePipelineBuilder { rb_pipeline : addr }.

(** The closure [() => makeExec(pipeline)]. *)
Record TerminalPipelineBuilder : Type :=
  mkTerminalPipelineBuilder { tb_pipeline : addr }.

Inductive RevResult : Type :=
| RevBuilder (b : ReversePipelineBuilder)
| RevTerminal (t : TerminalPipelineBuilder)
| RevExec (e : Exec).

Definition reversePipelineBuilder (func : Fn) (next : option addr)
  : M ReversePipelineBuilder :=
  next <- match next with
          | Some p => ret p
          | None => alloc []
          end ;;
  nx <- readArr next ;;
  pipeline <- alloc (func :: nx) ;;
  ret (mkReversePipelineBuilder pipeline).

Definition reversePipeline (func : Fn) : M ReversePipelineBuilder :=
  reversePipelineBuilder func None.

Definition ReversePipelineBuilder_call (b : ReversePipelineBuilder)
  (args : list Arg) : M RevResult :=
  match param0 args with
  | Fun func =>                                  (* func != null *)
      if 1 <? flength func then
        ret (RevTerminal (mkTerminalPipelineBuilder (rb_pipeline b)))
      else
        b' <- reversePipelineBuilder func (Some (rb_pipeline b)) ;;
        ret (RevBuilder b')
  | Undefined | Null =>
      ret (RevExec (makeExec (rb_pipeline b)))
  end.

(** The terminal closure declares no parameter: whatever it is called
    with is dropped. *)
Definition TerminalPipelineBuilder_call (t : TerminalPipelineBuilder)
  (args : list Arg) : M Exec :=
  ret (makeExec (tb_pipeline t)).

(** ** Value pipe *)

Record Pipe : Type := mkPipe { value : V }.

Inductive PipeResult : Type :=
| PipeValue (v : V)
| PipeNext (p : Pipe).

Definition pipe (value : V) : Pipe := mkPipe value.

Definition Pipe_call (p : Pipe) (args : list Arg) : M PipeResult :=
  match param0 args with
  | Undefined | Null =>                          (* func == null *)
      ret (PipeValue (value p))
  | Fun func =>
      r <- invoke func [value p] ;;
      ret (PipeNext (pipe r))
  end.

(** ** What an executor computes *)

(** The behaviour of an executor whose array holds [fs]. *)
Definition run_stages (fs : list Fn) (args : list V) : M V :=
  acc <- reduce fs args ;;
  ret (nth 0 acc undefined).

(** ** The store of arrays *)

(** Address [p] is allocated in [s] and holds the elements [fs]. *)
Definition stored (s : State) (p : addr) (fs : list Fn) : Prop :=
  nth_error (heap s) p = Some fs.

(** A state reached afterwards: every array of [s] is still there with the
    same elements, [more] arrays may have been allocated, and the world and
    the call log are whatever they have become. *)
Definition later (s : State) (more : list (list Fn)) (w : W)
  (c : list (Fn * list V)) : State :=
  mkState (heap s ++ more) w c.

(** The functions invoked between [s] and [s'], oldest first. *)
Definition invoked_since (s s' : State) (fs : list Fn) : Prop :=
  exists evs, calls s' = calls s ++ evs /\ map fst evs = fs.

(** ** Chains of calls

    What a caller writes as [b(g1)(g2)...(gn)]: each call is made on what
    the call before handed back, in the state that call left. *)

Inductive fwd_chain
  : PipelineBuilder -> State -> list Fn -> PipelineBuilder -> State -> Prop :=
| fwd_chain_nil b s : fwd_chain b s [] b s
| fwd_chain_cons b s g gs b1 s1 b' s' :
    PipelineBuilder_call b [Fun g] s = (Ret (FwdBuilder b1), s1) ->
    fwd_chain b1 s1 gs b' s' ->
    fwd_chain b s (g :: gs) b' s'.

Inductive rev_chain
  : ReversePipelineBuilder -> State -> list Fn ->
    ReversePipelineBuilder -> State -> Prop :=
| rev_chain_nil b s : rev_chain b s [] b s
| rev_chain_cons b s g gs b1 s1 b' s' :
    ReversePipelineBuilder_call b [Fun g] s = (Ret (RevBuilder b1), s1) ->
    rev_chain b1 s1 gs b' s' ->
    rev_chain b s (g :: gs) b' s'.

(** [p(f1)...(fn)] for a pipe stops at the first function that throws. *)
Inductive pipe_chain
  : Pipe -> State -> list Fn -> Res Pipe -> State -> Prop :=
| pipe_chain_nil p s : pipe_chain p s [] (Ret p) s
| pipe_chain_cons p s f fs p1 s1 out s' :
    Pipe_call p [Fun f] s = (Ret (PipeNext p1), s1) ->
    pipe_chain p1 s1 fs out s' ->
    pipe_chain p s (f :: fs) out s'
| pipe_chain_throw p s f fs x s1 :
    Pipe_call p [Fun f] s = (Throw x, s1) ->
    pipe_chain p s (f :: fs) (Throw x) s1.

(** The argument lists of a run: the first invocation receives [args],
    every later one a single value. *)
Definition run_shaped (args : list V) (evs : list (Fn * list V)) : Prop :=
  match evs with
  | [] => True
  | ev :: rest =>
      snd ev = args /\ Forall (fun ev' => length (snd ev') = 1) rest
  end.

End Pipefunc.

Arguments Ret {V A} a.
Arguments Throw {V A} x.
Arguments ret {V W A} a.
Arguments alloc {V W} xs.
Arguments readArr {V W} p.
Arguments Undefined {V W}.
Arguments Null {V W}.
Arguments Exec_call {V} undefined {W} e args.
Arguments run_stages {V} undefined {W} fs args.
Arguments TerminalPipelineBuilder_call {V W} t args.

Notation "x <- m ;; k" := (bind m (fun x => k)).

(** * The closure-based implementation

    The implementation that came before the arrays: a builder captures one
    function [a], and supplying [b] wraps both in a new arrow function.
    Builders allocate nothing here, so their calls are pure. *)

Module Closures.
Section Closures.

Context {V W : Type}.

(** A function as this implementation holds it: one the user supplied, or
    an arrow function the library made. *)
Inductive Composed : Type :=
| User (f : Fn V W)
| FwdArrow (b : Fn V W) (a : Composed)   (* (...x) => b(a(...x)) *)
| RevArrow (a : Composed) (b : Fn V W).  (* (...x) => a(b(...x)) *)

Fixpoint Composed_call (c : Composed) (x : list V) : M V W V :=
  match c with
  | User f => invoke f x
  | FwdArrow b a => r <- Composed_call a x ;; invoke b [r]
  | RevArrow a b => r <- invoke b x ;; Composed_call a [r]
  end.

(** The user functions of a composed function, in the order they run. *)
Fixpoint stages_of (c : Composed) : list (Fn V W) :=
  match c with
  | User f => [f]
  | FwdArrow b a => stages_of a ++ [b]
  | RevArrow a b => b :: stages_of a
  end.

Record PipelineBuilder : Type := mkPipelineBuilder { pb_a : Composed }.

Inductive FwdResult : Type :=
| FwdBuilder (b : PipelineBuilder)
| FwdFn (a : Composed).

Definition pipeline (a : Composed) : PipelineBuilder := mkPipelineBuilder a.

Definition PipelineBuilder_call (self : PipelineBuilder)
  (args : list (Arg V W)) : FwdResult :=
  match param0 args with
  | Undefined | Null =>                            (* b == null *)
      FwdFn (pb_a self)
  | Fun b =>
      FwdBuilder (pipeline (FwdArrow b (pb_a self)))
  end.

Record ReversePipelineBuilder : Type :=
  mkReversePipelineBuilder { rb_a : Composed }.

(** The closure [() => (...x) => a(b(...x))]. *)
Record TerminalPipelineBuilder : Type :=
  mkTerminalPipelineBuilder { tb_a : Composed; tb_b : Fn V W }.

Inductive RevResult : Type :=
| RevBuilder (b : ReversePipelineBuilder)
| RevTerminal (t : TerminalPipelineBuilder)
| RevFn (a : Composed).

Definition reversePipeline (a : Composed) : ReversePipelineBuilder :=
  mkReversePipelineBuilder a.

Definition ReversePipelineBuilder_call (self : ReversePipelineBuilder)
  (args : list (Arg V W)) : RevResult :=
  match param0 args with
  | Undefined | Null =>                            (* b == null *)
      RevFn (rb_a self)
  | Fun b =>
      if 1 <? flength b then
        RevTerminal (mkTerminalPipelineBuilder (rb_a self) b)
      else
        RevBuilder (reversePipeline (RevArrow (rb_a self) b))
  end.

Definition TerminalPipelineBuilder_call (t : TerminalPipelineBuilder)
  (args : list (Arg V W)) : Composed :=
  RevArrow (tb_a t) (tb_b t).

(** [b(g1)...(gn)] on these builders. *)
Inductive fwd_chain
  : PipelineBuilder -> list (Fn V W) -> PipelineBuilder -> Prop :=
| fwd_chain_nil b : fwd_chain b [] b
| fwd_chain_cons b g gs b1 b' :
    PipelineBuilder_call b [Fun g] = FwdBuilder b1 ->
    fwd_chain b1 gs b' ->
    fwd_chain b (g :: gs) b'.

Inductive rev_chain
  : ReversePipelineBuilder -> list (Fn V W) -> ReversePipelineBuilder -> Prop :=
| rev_chain_nil b : rev_chain b [] b
| rev_chain_cons b g gs b1 b' :
    ReversePipelineBuilder_call b [Fun g] = RevBuilder b1 ->
    rev_chain b1 gs b' ->
    rev_chain b (g :: gs) b'.

End Closures.
End Closures.

(** ** Sample values and functions

    A small universe of numbers for concrete runs: arithmetic on anything
    but a number gives [NaN], as in JavaScript.  The sample functions have
    no effect on the world. *)

Inductive JsVal : Type :=
| JUndefined
| JNaN
| JNum (n : Z).

Definition SampleFn : Type := Fn JsVal unit.

(** [(n) => g(n)] for an arithmetic [g]. *)
Definition arith1 (g : Z -> Z) : SampleFn :=
  mkFn 1 (fun args w =>
            (Ret match args with
                 | JNum n :: _ => JNum (g n)
                 | _ => JNaN
                 end, w)).

(** [(n) => n * 5] *)
Definition timesFive : SampleFn := arith1 (fun n => n * 5)%Z.

(** [(n) => n + 1] *)
Definition plusOne : SampleFn := arith1 (fun n => n + 1)%Z.

(** [(a, b) => a + b], whose [length] is 2. *)
Definition add : SampleFn :=
  mkFn 2 (fun args w =>
            (Ret match args with
                 | JNum a :: JNum b :: _ => JNum (a + b)
                 | _ => JNaN
                 end, w)).

(** [(...xs) => xs.length], whose [length] is 0. *)
Definition countArgs : SampleFn :=
  mkFn 0 (fun args w => (Ret (JNum (Z.of_nat (length args))), w)).

(** [(n) => { throw 99 }] *)
Definition boom : SampleFn :=
  mkFn 1 (fun _ w => (Throw (JNum 99), w)).

(** Nothing allocated, nothing called. *)
Definition start : State JsVal unit := mkState [] tt [].

(** One array, at address 0, holding three stages. *)
Definition loaded : State JsVal unit :=
  mkState [[plusOne; boom; timesFive]] tt [].

(** One array, at address 0, holding the single stage [timesFive]. *)
Definition loaded1 : State JsVal unit := mkState [[timesFive]] tt [].

(** * Properties *)

Section Properties.

Context {V : Type} (undefined : V) {W : Type}.

Implicit Types (s : State V W) (f g h func : Fn V W) (fs : list (Fn V W)).
Implicit Types (p : addr) (a args : list V).

(** ** The store only grows *)

Lemma later_nil s : later s [] (world s) (calls s) = s.
Proof. destruct s; unfold later; simpl; now rewrite app_nil_r. Qed.

Lemma later_later s m w c m' w' c' :
  later (later s m w c) m' w' c' = later s (m ++ m') w' c'.
Proof. unfold later; simpl; now rewrite app_assoc. Qed.

Lemma stored_lt s p fs : stored s p fs -> p < length (heap s).
Proof. unfold stored; intros H; apply nth_error_Some; congruence. Qed.

Lemma stored_later s p fs m w c :
  stored s p fs -> stored (later s m w c) p fs.
Proof.
  intros H; unfold stored, later; simpl.
  rewrite nth_error_app1 by (eapply stored_lt; eauto); exact H.
Qed.

Lemma stored_fresh s xs w c : stored (later s [xs] w c) (length (heap s)) xs.
Proof.
  unfold stored, later; simpl.
  rewrite nth_error_app2 by lia.
  now rewrite Nat.sub_diag.
Qed.

Lemma readArr_stored s p fs : stored s p fs -> readArr p s = (Ret fs, s).
Proof.
  intros H; unfold readArr; f_equal; f_equal.
  now apply nth_error_nth.
Qed.

(** ** Monad and primitive steps *)

Lemma bind_step A B (m : M V W A) (k : A -> M V W B) s x s' :
  m s = (Ret x, s') -> bind m k s = k x s'.
Proof. intros H; unfold bind; now rewrite H. Qed.

Lemma bind_throw A B (m : M V W A) (k : A -> M V W B) s x s' :
  m s = (Throw x, s') -> bind m k s = (Throw x, s').
Proof. intros H; unfold bind; now rewrite H. Qed.

Lemma invoke_ret func args s r w' :
  fbody func args (world s) = (Ret r, w') ->
  invoke func args s = (Ret r, later s [] w' (calls s ++ [(func, args)])).
Proof.
  intros H; unfold invoke, later; rewrite H; now rewrite app_nil_r.
Qed.

Lemma invoke_throw func args s x w' :
  fbody func args (world s) = (Throw x, w') ->
  invoke func args s = (Throw x, later s [] w' (calls s ++ [(func, args)])).
Proof.
  intros H; unfold invoke, later; rewrite H; now rewrite app_nil_r.
Qed.

Lemma invoke_heap func args s : heap (snd (invoke func args s)) = heap s.
Proof. unfold invoke; destruct (fbody func args (world s)); reflexivity. Qed.

Lemma invoke_calls func args s :
  calls (snd (invoke func args s)) = calls s ++ [(func, args)].
Proof. unfold invoke; destruct (fbody func args (world s)); reflexivity. Qed.

(** ** reduce *)

Lemma reduce_heap fs : forall args s, heap (snd (reduce fs args s)) = heap s.
Proof.
  induction fs as [|func rest IH]; intros args s; simpl; [reflexivity|].
  unfold bind.
  pose proof (invoke_heap func args s) as Hh.
  destruct (invoke func args s) as [[r|x] s1]; simpl in *.
  - now rewrite IH.
  - exact Hh.
Qed.

Lemma reduce_app fs gs : forall args s,
  reduce (fs ++ gs) args s = (acc <- reduce fs args ;; reduce gs acc) s.
Proof.
  induction fs as [|func rest IH]; intros args s; simpl; [reflexivity|].
  unfold bind at 1 2 3.
  destruct (invoke func args s) as [[r|x] s1]; [|reflexivity].
  rewrite IH; reflexivity.
Qed.

Lemma invoked_since_refl s : invoked_since s s [].
Proof. exists []; split; [now rewrite app_nil_r | reflexivity]. Qed.

Lemma invoked_since_trans s1 s2 s3 fs gs :
  invoked_since s1 s2 fs -> invoked_since s2 s3 gs ->
  invoked_since s1 s3 (fs ++ gs).
Proof.
  intros (e1 & H1 & M1) (e2 & H2 & M2).
  exists (e1 ++ e2); split.
  - now rewrite H2, H1, app_assoc.
  - now rewrite map_app, M1, M2.
Qed.

Lemma invoked_since_invoke func args s :
  invoked_since s (snd (invoke func args s)) [func].
Proof. exists [(func, args)]; split; [apply invoke_calls | reflexivity]. Qed.

(** A run of [reduce] that returns has invoked every stage once, in order. *)
Lemma reduce_invoked fs : forall args s acc s',
  reduce fs args s = (Ret acc, s') -> invoked_since s s' fs.
Proof.
  induction fs as [|func rest IH]; intros args s acc s' H; simpl in H.
  - inversion H; subst; apply invoked_since_refl.
  - unfold bind in H.
    pose proof (invoked_since_invoke func args s) as Hi.
    destruct (invoke func args s) as [[r|x] s1]; [|discriminate].
    simpl in Hi.
    change (func :: rest) with ([func] ++ rest).
    eapply invoked_since_trans; eauto.
Qed.

(** ** One step of each closure *)

Lemma Exec_call_stored e fs a s :
  stored s (ex_pipeline e) fs ->
  Exec_call undefined e a s = run_stages undefined fs a s.
Proof.
  intros H; unfold Exec_call, run_stages.
  erewrite bind_step by (apply readArr_stored; exact H).
  reflexivity.
Qed.

Lemma Exec_call_heap e a s :
  heap (snd (Exec_call undefined e a s)) = heap s.
Proof.
  unfold Exec_call, bind, readArr, ret.
  pose proof (reduce_heap (nth (ex_pipeline e) (heap s) []) a s) as Hh.
  destruct (reduce _ a s) as [[acc|x] s1]; exact Hh.
Qed.

Lemma pipelineBuilder_Some func p fs s :
  stored s p fs ->
  pipelineBuilder func (Some p) s
  = (Ret (mkPipelineBuilder (length (heap s))),
     later s [fs ++ [func]] (world s) (calls s)).
Proof.
  intros H; unfold pipelineBuilder, bind, ret, readArr, alloc, later; simpl.
  now rewrite (nth_error_nth _ _ _ H).
Qed.

Lemma pipelineBuilder_None func s :
  pipelineBuilder func None s
  = (Ret (mkPipelineBuilder (S (length (heap s)))),
     later s [[]; [func]] (world s) (calls s)).
Proof.
  unfold pipelineBuilder, bind, ret, readArr, alloc, later; simpl.
  rewrite app_nth2, Nat.sub_diag, length_app, Nat.add_1_r, <- app_assoc by lia.
  reflexivity.
Qed.

Lemma reversePipelineBuilder_Some func p fs s :
  stored s p fs ->
  reversePipelineBuilder func (Some p) s
  = (Ret (mkReversePipelineBuilder (length (heap s))),
     later s [func :: fs] (world s) (calls s)).
Proof.
  intros H; unfold reversePipelineBuilder, bind, ret, readArr, alloc, later.
  simpl.
  now rewrite (nth_error_nth _ _ _ H).
Qed.

Lemma reversePipelineBuilder_None func s :
  reversePipelineBuilder func None s
  = (Ret (mkReversePipelineBuilder (S (length (heap s)))),
     later s [[]; [func]] (world s) (calls s)).
Proof.
  unfold reversePipelineBuilder, bind, ret, readArr, alloc, later; simpl.
  rewrite app_nth2, Nat.sub_diag, length_app, Nat.add_1_r, <- app_assoc by lia.
  reflexivity.
Qed.

Lemma stored_second s xs ys w c :
  stored (later s [xs; ys] w c) (S (length (heap s))) ys.
Proof.
  unfold stored, later; cbn [heap].
  rewrite nth_error_app2 by lia.
  now replace (S (length (heap s)) - length (heap s)) with 1 by lia.
Qed.

(** Starting a forward pipeline: the new builder's array holds the seed. *)
Lemma pipeline_spec func s :
  exists b s',
    pipeline func s = (Ret b, s') /\
    s' = later s [[]; [func]] (world s) (calls s) /\
    stored s' (pb_pipeline b) [func].
Proof.
  eexists _, _; split; [apply pipelineBuilder_None|].
  split; [reflexivity | apply stored_second].
Qed.

(** Appending a stage: a new array, one element longer. *)
Lemma PipelineBuilder_add b g fs s :
  stored s (pb_pipeline b) fs ->
  exists b' s',
    PipelineBuilder_call b [Fun g] s = (Ret (FwdBuilder b'), s') /\
    s' = later s [fs ++ [g]] (world s) (calls s) /\
    stored s' (pb_pipeline b') (fs ++ [g]).
Proof.
  intros H; eexists _, _; split; [|split; [reflexivity|]].
  - unfold PipelineBuilder_call; simpl.
    erewrite bind_step by (apply pipelineBuilder_Some; exact H).
    reflexivity.
  - apply stored_fresh.
Qed.

Lemma PipelineBuilder_finalize b x s :
  eq_null x = true ->
  PipelineBuilder_call b [x] s = (Ret (FwdExec (makeExec (pb_pipeline b))), s).
Proof. destruct x; [reflexivity | reflexivity | discriminate]. Qed.

Lemma reversePipeline_spec func s :
  exists b s',
    reversePipeline func s = (Ret b, s') /\
    s' = later s [[]; [func]] (world s) (calls s) /\
    stored s' (rb_pipeline b) [func].
Proof.
  eexists _, _; split; [apply reversePipelineBuilder_None|].
  split; [reflexivity | apply stored_second].
Qed.

(** Prepending a stage of at most one declared parameter. *)
Lemma ReversePipelineBuilder_add b g fs s :
  stored s (rb_pipeline b) fs ->
  flength g <= 1 ->
  exists b' s',
    ReversePipelineBuilder_call b [Fun g] s = (Ret (RevBuilder b'), s') /\
    s' = later s [g :: fs] (world s) (calls s) /\
    stored s' (rb_pipeline b') (g :: fs).
Proof.
  intros H Hg; eexists _, _; split; [|split; [reflexivity|]].
  - unfold ReversePipelineBuilder_call; simpl.
    destruct (Nat.ltb_spec 1 (flength g)) as [Hlt|_]; [lia|].
    erewrite bind_step by (apply reversePipelineBuilder_Some; exact H).
    reflexivity.
  - apply stored_fresh.
Qed.

Lemma ReversePipelineBuilder_terminal b g s :
  1 < flength g ->
  ReversePipelineBuilder_call b [Fun g] s
  = (Ret (RevTerminal (mkTerminalPipelineBuilder (rb_pipeline b))), s).
Proof.
  intros Hg; unfold ReversePipelineBuilder_call; simpl.
  now destruct (Nat.ltb_spec 1 (flength g)) as [_|Hle]; [|lia].
Qed.

Lemma ReversePipelineBuilder_finalize b x s :
  eq_null x = true ->
  ReversePipelineBuilder_call b [x] s
  = (Ret (RevExec (makeExec (rb_pipeline b))), s).
Proof. destruct x; [reflexivity | reflexivity | discriminate]. Qed.

(** Unfolds a run over an explicit list of stages, outcome by outcome. *)
Ltac run_stages_cases :=
  unfold run_stages; cbn [reduce]; unfold bind, ret;
  repeat match goal with
         | |- context [invoke ?f ?a ?s] =>
             destruct (invoke f a s) as [[?|?] ?]; cbv beta iota
         end;
  reflexivity.

Lemma run_stages_cons func fs a s :
  run_stages undefined (func :: fs) a s
  = (r <- invoke func a ;; run_stages undefined fs [r]) s.
Proof.
  unfold run_stages; cbn [reduce]; unfold bind.
  destruct (invoke func a s) as [[r|x] s1]; reflexivity.
Qed.

(** A builder call allocates at most; it runs no user code. *)
Lemma PipelineBuilder_call_later (b : PipelineBuilder) (xs : list (Arg V W)) s :
  exists more,
    snd (PipelineBuilder_call b xs s) = later s more (world s) (calls s).
Proof.
  unfold PipelineBuilder_call; destruct (param0 xs) as [| |func].
  - exists []; simpl; now rewrite later_nil.
  - exists []; simpl; now rewrite later_nil.
  - eexists; unfold pipelineBuilder, bind, ret, readArr, alloc, later; simpl.
    reflexivity.
Qed.

Lemma ReversePipelineBuilder_call_later (b : ReversePipelineBuilder)
  (xs : list (Arg V W)) s :
  exists more,
    snd (ReversePipelineBuilder_call b xs s)
    = later s more (world s) (calls s).
Proof.
  unfold ReversePipelineBuilder_call; destruct (param0 xs) as [| |func].
  - exists []; simpl; now rewrite later_nil.
  - exists []; simpl; now rewrite later_nil.
  - destruct (1 <? flength func).
    + exists []; simpl; now rewrite later_nil.
    + eexists; unfold reversePipelineBuilder, bind, ret, readArr, alloc, later.
      simpl; reflexivity.
Qed.

Lemma stored_same_heap s s' p fs :
  heap s' = heap s -> stored s p fs -> stored s' p fs.
Proof. unfold stored; now intros ->. Qed.

(** The executor a finalizing call hands back reads the builder's array. *)
Lemma finalized_exec_stored s0 fs e :
  (exists b, stored s0 (pb_pipeline b) fs /\
             PipelineBuilder_call b [] s0 = (Ret (FwdExec e), s0)) \/
  (exists b, stored s0 (rb_pipeline b) fs /\
             ReversePipelineBuilder_call b [] s0 = (Ret (RevExec e), s0)) \/
  (exists t, stored s0 (tb_pipeline t) fs /\
             TerminalPipelineBuilder_call t [] s0 = (Ret e, s0)) ->
  stored s0 (ex_pipeline e) fs.
Proof.
  intros [(b & Hs & Hc) | [(b & Hs & Hc) | (t & Hs & Hc)]];
    inversion Hc; subst; exact Hs.
Qed.

(** The stage at which a run stops: the stages before it returned, it throws. *)
Lemma run_stages_throw pre func post args acc x s s1 w2 :
  reduce pre args s = (Ret acc, s1) ->
  fbody func acc (world s1) = (Throw x, w2) ->
  exists s2,
    run_stages undefined (pre ++ func :: post) args s = (Throw x, s2) /\
    world s2 = w2 /\
    invoked_since s s2 (pre ++ [func]).
Proof.
  intros Hpre Hthrow.
  exists (later s1 [] w2 (calls s1 ++ [(func, acc)])).
  split; [|split; [reflexivity|]].
  - unfold run_stages.
    apply bind_throw.
    rewrite reduce_app.
    erewrite bind_step by exact Hpre.
    cbn [reduce].
    apply bind_throw.
    now apply invoke_throw.
  - eapply invoked_since_trans; [eapply reduce_invoked; exact Hpre|].
    exists [(func, acc)]; split; reflexivity.
Qed.

(** ** Forward pipelines *)

(** C2.  [pipeline(f)(g)(h)()] applied to the argument list [a] computes
    [h(g(f(...a)))]: the seed receives the whole argument list and every
    appended stage receives the previous result as its only argument, in
    the order of addition; the built function does so whenever it is called
    afterwards. *)
Theorem forward_pipeline_three_stages f g h s :
  exists b1 s1 b2 s2 b3 s3 e,
    pipeline f s = (Ret b1, s1) /\
    PipelineBuilder_call b1 [Fun g] s1 = (Ret (FwdBuilder b2), s2) /\
    PipelineBuilder_call b2 [Fun h] s2 = (Ret (FwdBuilder b3), s3) /\
    PipelineBuilder_call b3 [] s3 = (Ret (FwdExec e), s3) /\
    forall a more w c,
      let s' := later s3 more w c in
      Exec_call undefined e a s'
      = (r1 <- invoke f a ;; r2 <- invoke g [r1] ;; invoke h [r2]) s'.
Proof.
  destruct (pipeline_spec f s) as (b1 & s1 & E1 & _ & S1).
  destruct (PipelineBuilder_add b1 g S1) as (b2 & s2 & E2 & _ & S2).
  destruct (PipelineBuilder_add b2 h S2) as (b3 & s3 & E3 & _ & S3).
  exists b1, s1, b2, s2, b3, s3, (makeExec (pb_pipeline b3)).
  do 4 (split; [assumption || reflexivity|]).
  intros a more w c s'.
  rewrite (@Exec_call_stored _ [f; g; h]) by (apply stored_later; exact S3).
  run_stages_cases.
Qed.

(** C7.  [pipeline(f)()] behaves as the seed [f]: on every argument list
    it is exactly one call of [f] with that list, so it returns what [f]
    returns, throws what [f] throws and changes the world as [f] does. *)
Theorem forward_pipeline_seed_only f s :
  exists b s1 e,
    pipeline f s = (Ret b, s1) /\
    PipelineBuilder_call b [] s1 = (Ret (FwdExec e), s1) /\
    forall a more w c,
      let s' := later s1 more w c in
      Exec_call undefined e a s' = invoke f a s' /\
      fst (Exec_call undefined e a s') = fst (fbody f a w) /\
      world (snd (Exec_call undefined e a s')) = snd (fbody f a w).
Proof.
  destruct (pipeline_spec f s) as (b & s1 & E1 & _ & S1).
  exists b, s1, (makeExec (pb_pipeline b)).
  do 2 (split; [assumption || reflexivity|]).
  intros a more w c s'.
  assert (E : Exec_call undefined (makeExec (pb_pipeline b)) a s'
              = invoke f a s').
  { rewrite (@Exec_call_stored _ [f]) by (apply stored_later; exact S1).
    run_stages_cases. }
  rewrite E; split; [reflexivity|].
  unfold invoke; subst s'; simpl.
  destruct (fbody f a w); split; reflexivity.
Qed.

(** C5.  Builders are persistent.  From [B = pipeline(f)], the calls [B(g)]
    and [B(h)], made at any two later moments, give builders whose built
    functions compute [g(f(...))] and [h(f(...))], while [B] itself still
    builds [f].  No builder call and no run of a built function changes an
    array that already exists, so a builder whose array holds [fs] finalizes
    to the same behaviour, and extends to [fs] plus the new stage, however
    often and whenever it is called. *)
Theorem forward_builder_fork_safety f g h s :
  (exists B s0,
     pipeline f s = (Ret B, s0) /\
     forall m1 w1 c1, exists Bg s1,
       PipelineBuilder_call B [Fun g] (later s0 m1 w1 c1)
       = (Ret (FwdBuilder Bg), s1) /\
     forall m2 w2 c2, exists Bh s2,
       PipelineBuilder_call B [Fun h] (later s1 m2 w2 c2)
       = (Ret (FwdBuilder Bh), s2) /\
     forall m3 w3 c3,
       let s3 := later s2 m3 w3 c3 in
       exists eg eh e0,
         PipelineBuilder_call Bg [] s3 = (Ret (FwdExec eg), s3) /\
         PipelineBuilder_call Bh [] s3 = (Ret (FwdExec eh), s3) /\
         PipelineBuilder_call B [] s3 = (Ret (FwdExec e0), s3) /\
         forall a m4 w4 c4,
           let s4 := later s3 m4 w4 c4 in
           Exec_call undefined eg a s4 = (r <- invoke f a ;; invoke g [r]) s4 /\
           Exec_call undefined eh a s4 = (r <- invoke f a ;; invoke h [r]) s4 /\
           Exec_call undefined e0 a s4 = invoke f a s4)
  /\
  (forall (b : PipelineBuilder) (xs : list (Arg V W)) t p fs,
     stored t p fs -> stored (snd (PipelineBuilder_call b xs t)) p fs)
  /\
  (forall (b : ReversePipelineBuilder) (xs : list (Arg V W)) t p fs,
     stored t p fs -> stored (snd (ReversePipelineBuilder_call b xs t)) p fs)
  /\
  (forall e a t p fs,
     stored t p fs -> stored (snd (Exec_call undefined e a t)) p fs)
  /\
  (forall B fs t,
     stored t (pb_pipeline B) fs ->
     forall more w c,
       let t' := later t more w c in
       (exists e,
          PipelineBuilder_call B [] t' = (Ret (FwdExec e), t') /\
          forall a m2 w2 c2,
            Exec_call undefined e a (later t' m2 w2 c2)
            = run_stages undefined fs a (later t' m2 w2 c2)) /\
       (forall k, exists B' t'',
          PipelineBuilder_call B [Fun k] t' = (Ret (FwdBuilder B'), t'') /\
          stored t'' (pb_pipeline B') (fs ++ [k]) /\
          stored t'' (pb_pipeline B) fs)).
Proof.
  split; [|split; [|split; [|split]]].
  - destruct (pipeline_spec f s) as (B & s0 & E0 & _ & S0).
    exists B, s0; split; [exact E0|].
    intros m1 w1 c1.
    pose proof (stored_later m1 w1 c1 S0) as S0'.
    destruct (PipelineBuilder_add B g S0') as (Bg & s1 & E1 & D1 & S1).
    exists Bg, s1; split; [exact E1|].
    assert (SB1 : stored s1 (pb_pipeline B) [f])
      by (rewrite D1; apply stored_later; exact S0').
    intros m2 w2 c2.
    pose proof (stored_later m2 w2 c2 SB1) as SB1'.
    destruct (PipelineBuilder_add B h SB1') as (Bh & s2 & E2 & D2 & S2).
    exists Bh, s2; split; [exact E2|].
    assert (SB2 : stored s2 (pb_pipeline B) [f])
      by (rewrite D2; apply stored_later; exact SB1').
    assert (SG2 : stored s2 (pb_pipeline Bg) ([f] ++ [g]))
      by (rewrite D2; do 2 apply stored_later; exact S1).
    intros m3 w3 c3 s3.
    exists (makeExec (pb_pipeline Bg)), (makeExec (pb_pipeline Bh)),
      (makeExec (pb_pipeline B)).
    do 3 (split; [reflexivity|]).
    intros a m4 w4 c4 s4.
    split; [|split].
    + rewrite (@Exec_call_stored _ [f; g])
        by (do 2 apply stored_later; exact SG2).
      run_stages_cases.
    + rewrite (@Exec_call_stored _ [f; h])
        by (do 2 apply stored_later; exact S2).
      run_stages_cases.
    + rewrite (@Exec_call_stored _ [f])
        by (do 2 apply stored_later; exact SB2).
      run_stages_cases.
  - intros b xs t p fs H.
    destruct (PipelineBuilder_call_later b xs t) as (more & ->).
    now apply stored_later.
  - intros b xs t p fs H.
    destruct (ReversePipelineBuilder_call_later b xs t) as (more & ->).
    now apply stored_later.
  - intros e a t p fs H.
    eapply stored_same_heap; [apply Exec_call_heap | exact H].
  - intros B fs t H more w c t'.
    pose proof (stored_later more w c H) as H'.
    split.
    + exists (makeExec (pb_pipeline B)); split; [reflexivity|].
      intros a m2 w2 c2.
      apply Exec_call_stored, stored_later; exact H'.
    + intros k.
      destruct (PipelineBuilder_add B k H') as (B' & t'' & E & D & S').
      exists B', t''; split; [exact E|]; split; [exact S'|].
      rewrite D; apply stored_later; exact H'.
Qed.

(** ** Reverse pipelines *)

(** C3.  [reversePipeline(f)(g)()] applied to [x] computes [f(g(x))]: the
    function added last runs first and the one supplied first runs last. *)
Theorem reverse_pipeline_two_stages f g s :
  flength g <= 1 ->
  exists b1 s1 b2 s2 e,
    reversePipeline f s = (Ret b1, s1) /\
    ReversePipelineBuilder_call b1 [Fun g] s1 = (Ret (RevBuilder b2), s2) /\
    ReversePipelineBuilder_call b2 [] s2 = (Ret (RevExec e), s2) /\
    forall x more w c,
      let s' := later s2 more w c in
      Exec_call undefined e [x] s' = (r <- invoke g [x] ;; invoke f [r]) s'.
Proof.
  intros Hg.
  destruct (reversePipeline_spec f s) as (b1 & s1 & E1 & _ & S1).
  destruct (ReversePipelineBuilder_add b1 g S1 Hg) as (b2 & s2 & E2 & _ & S2).
  exists b1, s1, b2, s2, (makeExec (rb_pipeline b2)).
  do 3 (split; [assumption || reflexivity|]).
  intros x more w c s'.
  rewrite (@Exec_call_stored _ [g; f]) by (apply stored_later; exact S2).
  run_stages_cases.
Qed.

(** C9.  A reverse builder that receives a function of declared parameter
    count 0 or 1 puts it in front of its stages and hands back a builder that
    finalizes to "this function first, then the former stages" and that
    accepts further stages; it hands back a terminal builder exactly when
    the declared parameter count exceeds 1. *)
Theorem reverse_builder_arity_dispatch (b : ReversePipelineBuilder) fs s func :
  stored s (rb_pipeline b) fs ->
  (flength func <= 1 ->
   exists b' s',
     ReversePipelineBuilder_call b [Fun func] s = (Ret (RevBuilder b'), s') /\
     stored s' (rb_pipeline b') (func :: fs) /\
     (forall a more w c,
        let s'' := later s' more w c in
        exists e,
          ReversePipelineBuilder_call b' [] s'' = (Ret (RevExec e), s'') /\
          Exec_call undefined e a s''
          = (r <- invoke func a ;; run_stages undefined fs [r]) s'') /\
     (forall k, flength k <= 1 ->
        exists b'' s'',
          ReversePipelineBuilder_call b' [Fun k] s'
          = (Ret (RevBuilder b''), s'') /\
          stored s'' (rb_pipeline b'') (k :: func :: fs)))
  /\
  ((exists t s',
      ReversePipelineBuilder_call b [Fun func] s = (Ret (RevTerminal t), s'))
   <-> 1 < flength func).
Proof.
  intros H; split.
  - intros Hle.
    destruct (ReversePipelineBuilder_add b func H Hle)
      as (b' & s' & E & _ & S').
    exists b', s'; split; [exact E|]; split; [exact S'|]; split.
    + intros a more w c s''.
      exists (makeExec (rb_pipeline b')); split; [reflexivity|].
      rewrite (@Exec_call_stored _ (func :: fs))
        by (apply stored_later; exact S').
      apply run_stages_cons.
    + intros k Hk.
      destruct (ReversePipelineBuilder_add b' k S' Hk)
        as (b'' & s'' & E' & _ & S'').
      now exists b'', s''.
  - split.
    + intros (t & s' & E).
      destruct (Nat.le_gt_cases (flength func) 1) as [Hle|Hgt]; [|exact Hgt].
      destruct (ReversePipelineBuilder_add b func H Hle)
        as (b' & s'' & E' & _).
      rewrite E' in E; discriminate.
    + intros Hgt; eexists _, _.
      now apply ReversePipelineBuilder_terminal.
Qed.

(** C6.  Once a reverse builder has received a function of more than one
    declared parameter, what it hands back only finalizes: called with
    anything at all, a function included, it returns the executor that the
    call without argument returns, allocates nothing, and the stages it
    reads stay what they were. *)
Theorem terminal_builder_only_finalizes (b : ReversePipelineBuilder) fs g s :
  stored s (rb_pipeline b) fs ->
  1 < flength g ->
  exists t,
    ReversePipelineBuilder_call b [Fun g] s = (Ret (RevTerminal t), s) /\
    forall (xs : list (Arg V W)) more w c,
      let s' := later s more w c in
      exists e,
        TerminalPipelineBuilder_call t xs s' = (Ret e, s') /\
        TerminalPipelineBuilder_call t [] s' = (Ret e, s') /\
        stored s' (tb_pipeline t) fs /\
        stored s' (ex_pipeline e) fs.
Proof.
  intros H Hg.
  exists (mkTerminalPipelineBuilder (rb_pipeline b)); split.
  - now apply ReversePipelineBuilder_terminal.
  - intros xs more w c s'.
    exists (makeExec (rb_pipeline b)).
    repeat split; apply stored_later; exact H.
Qed.

(** The executor of a terminal builder runs the stages the reverse builder
    had before the call: the function of several parameters is not among
    them. *)
Lemma terminal_exec_runs_former_stages (b : ReversePipelineBuilder) fs g s :
  stored s (rb_pipeline b) fs ->
  1 < flength g ->
  exists t e,
    ReversePipelineBuilder_call b [Fun g] s = (Ret (RevTerminal t), s) /\
    TerminalPipelineBuilder_call t [] s = (Ret e, s) /\
    forall a, Exec_call undefined e a s = run_stages undefined fs a s.
Proof.
  intros H Hg.
  exists (mkTerminalPipelineBuilder (rb_pipeline b)),
    (makeExec (rb_pipeline b)).
  split; [now apply ReversePipelineBuilder_terminal|].
  split; [reflexivity|].
  intros a; now apply Exec_call_stored.
Qed.

(** ** Exceptions *)

(** C4.  Take the function built by finalizing a forward, reverse or
    terminal builder whose stages are [pre ++ f :: post].  If on [args] the
    stages of [pre] return, leaving [acc], and [f] throws [x] on [acc], then
    the built function throws [x]; the functions it has invoked are those of
    [pre] and then [f], none of [post]. *)
Theorem stage_exception_propagates pre f post args acc x s0 more w c s1 w2 e :
  let fs := pre ++ f :: post in
  let s := later s0 more w c in
  (exists b, stored s0 (pb_pipeline b) fs /\
             PipelineBuilder_call b [] s0 = (Ret (FwdExec e), s0)) \/
  (exists b, stored s0 (rb_pipeline b) fs /\
             ReversePipelineBuilder_call b [] s0 = (Ret (RevExec e), s0)) \/
  (exists t, stored s0 (tb_pipeline t) fs /\
             TerminalPipelineBuilder_call t [] s0 = (Ret e, s0)) ->
  reduce pre args s = (Ret acc, s1) ->
  fbody f acc (world s1) = (Throw x, w2) ->
  exists s2,
    Exec_call undefined e args s = (Throw x, s2) /\
    world s2 = w2 /\
    invoked_since s s2 (pre ++ [f]).
Proof.
  intros fs s Hfin Hpre Hthrow.
  rewrite (@Exec_call_stored _ fs)
    by (apply stored_later, finalized_exec_stored; exact Hfin).
  now apply run_stages_throw with (acc := acc) (s1 := s1).
Qed.

(** ** Value pipes *)

(** C8.  [pipe(v)(f)] invokes [f] once, with [v], during that very call:
    when the call is over the log has grown by that single invocation.  The
    call returns a pipe wrapping the result of [f], or throws what [f]
    throws. *)
Theorem pipe_applies_function_immediately (v : V) f s :
  let out := Pipe_call (pipe v) [Fun f] s in
  calls (snd out) = calls s ++ [(f, [v])] /\
  fst out = match fst (fbody f [v] (world s)) with
            | Ret r => Ret (PipeNext (pipe r))
            | Throw x => Throw x
            end /\
  world (snd out) = snd (fbody f [v] (world s)) /\
  heap (snd out) = heap s.
Proof.
  unfold Pipe_call, pipe, bind, invoke, ret; simpl.
  destruct (fbody f [v] (world s)) as [[r|x] w']; simpl; auto.
Qed.

(** ** Calls with [null] or [undefined] *)

(** C10.  An argument that is [undefined] or [null] is treated like no
    argument: both kinds of builder hand back their executor, a pipe hands
    back its value; nothing throws, nothing is allocated, nothing is
    invoked. *)
Theorem nullish_argument_finalizes (x : Arg V W) :
  eq_null x = true ->
  (forall (b : PipelineBuilder) s,
     PipelineBuilder_call b [x] s = PipelineBuilder_call b [] s /\
     PipelineBuilder_call b [x] s
     = (Ret (FwdExec (makeExec (pb_pipeline b))), s))
  /\
  (forall (b : ReversePipelineBuilder) s,
     ReversePipelineBuilder_call b [x] s = ReversePipelineBuilder_call b [] s /\
     ReversePipelineBuilder_call b [x] s
     = (Ret (RevExec (makeExec (rb_pipeline b))), s))
  /\
  (forall (q : Pipe V) s,
     Pipe_call q [x] s = Pipe_call q [] s /\
     Pipe_call q [x] s = (Ret (PipeValue (value q)), s)).
Proof.
  intros Hx.
  destruct x as [| |func]; [| |discriminate]; repeat split; reflexivity.
Qed.

End Properties.

(** * Concrete runs *)

(** [pipeline(plusOne)(timesFive)()] called with 7 returns 40. *)
Example forward_sample_run :
  exists b1 s1 b2 s2 e s3,
    pipeline plusOne start = (Ret b1, s1) /\
    PipelineBuilder_call b1 [Fun timesFive] s1 = (Ret (FwdBuilder b2), s2) /\
    PipelineBuilder_call b2 [] s2 = (Ret (FwdExec e), s2) /\
    Exec_call JUndefined e [JNum 7] s2 = (Ret (JNum 40), s3) /\
    calls s3 = [(plusOne, [JNum 7]); (timesFive, [JNum 8])].
Proof. do 6 eexists; repeat split; reflexivity. Qed.

(** [reversePipeline(timesFive)(plusOne)()] called with 7 returns 40. *)
Example reverse_sample_run :
  exists b1 s1 b2 s2 e s3,
    reversePipeline timesFive start = (Ret b1, s1) /\
    ReversePipelineBuilder_call b1 [Fun plusOne] s1
    = (Ret (RevBuilder b2), s2) /\
    ReversePipelineBuilder_call b2 [] s2 = (Ret (RevExec e), s2) /\
    Exec_call JUndefined e [JNum 7] s2 = (Ret (JNum 40), s3) /\
    calls s3 = [(plusOne, [JNum 7]); (timesFive, [JNum 8])].
Proof. do 6 eexists; repeat split; reflexivity. Qed.

(** [pipe(7)(plusOne)(timesFive)()] returns 40. *)
Example pipe_sample_run :
  exists q1 s1 q2 s2,
    Pipe_call (pipe (JNum 7)) [Fun plusOne] start = (Ret (PipeNext q1), s1) /\
    Pipe_call q1 [Fun timesFive] s1 = (Ret (PipeNext q2), s2) /\
    Pipe_call q2 [] s2 = (Ret (PipeValue (JNum 40)), s2).
Proof. do 4 eexists; repeat split; reflexivity. Qed.

(** An executor over no stage at all hands back its first argument, or
    [undefined] when it has none. *)
Example exec_without_stage :
  fst (Exec_call JUndefined (makeExec 0) [JNum 3; JNum 4]
         (mkState [[]] tt []))
  = Ret (JNum 3) /\
  fst (Exec_call JUndefined (makeExec 0) [] (mkState [[]] tt []))
  = Ret JUndefined.
Proof. split; reflexivity. Qed.

(** C1.  [reversePipeline(timesFive)(add)()] called with [(1, 2)]: the
    function [add] is never invoked; [timesFive] receives both arguments and
    the result is 5, where running [add] first would give 15. *)
Theorem reverse_multi_arg_stage_is_dropped :
  exists b1 s1 t e s2,
    reversePipeline timesFive start = (Ret b1, s1) /\
    ReversePipelineBuilder_call b1 [Fun add] s1 = (Ret (RevTerminal t), s1) /\
    TerminalPipelineBuilder_call t [] s1 = (Ret e, s1) /\
    Exec_call JUndefined e [JNum 1; JNum 2] s1 = (Ret (JNum 5), s2) /\
    calls s2 = [(timesFive, [JNum 1; JNum 2])] /\
    (r <- invoke add [JNum 1; JNum 2] ;; invoke timesFive [r]) s1
    = (Ret (JNum 15),
       later s1 [] tt [(add, [JNum 1; JNum 2]); (timesFive, [JNum 3])]).
Proof. do 5 eexists; repeat split; reflexivity. Qed.

Lemma reverse_pipeline_two_stages_witness :
  flength plusOne <= 1 /\
  exists e s2,
    forall x,
      Exec_call JUndefined e [x] s2
      = (r <- invoke plusOne [x] ;; invoke timesFive [r]) s2.
Proof.
  split; [apply le_n|].
  destruct (@reverse_pipeline_two_stages JsVal JUndefined unit timesFive
              plusOne start (le_n 1))
    as (b1 & s1 & b2 & s2 & e & _ & _ & _ & H).
  exists e, s2; intros x.
  specialize (H x [] (world s2) (calls s2)); cbv zeta in H.
  rewrite later_nil in H; exact H.
Defined.

Lemma stage_exception_propagates_witness :
  exists s2,
    Exec_call JUndefined (makeExec 0) [JNum 1] loaded
    = (Throw (JNum 99), s2) /\
    world s2 = tt /\
    invoked_since loaded s2 [plusOne; boom].
Proof.
  eapply (@stage_exception_propagates JsVal JUndefined unit [plusOne] boom
            [timesFive] [JNum 1] _ _ loaded [] tt [] _ _ (makeExec 0)).
  - left; exists (mkPipelineBuilder 0); split; reflexivity.
  - reflexivity.
  - reflexivity.
Defined.

Lemma forward_builder_fork_safety_witness :
  stored loaded 0 [plusOne; boom; timesFive] /\
  exists B' t'',
    PipelineBuilder_call (mkPipelineBuilder 0) [Fun add] loaded
    = (Ret (FwdBuilder B'), t'') /\
    stored t'' (pb_pipeline B') ([plusOne; boom; timesFive] ++ [add]) /\
    stored t'' 0 [plusOne; boom; timesFive].
Proof.
  assert (S0 : stored loaded 0 [plusOne; boom; timesFive]) by reflexivity.
  split; [exact S0|].
  destruct (@forward_builder_fork_safety JsVal JUndefined unit plusOne
              plusOne plusOne start) as (_ & _ & _ & _ & H).
  destruct (H (mkPipelineBuilder 0) _ loaded S0 [] tt []) as (_ & Hext).
  exact (Hext add).
Defined.

Lemma reverse_builder_arity_dispatch_witness :
  stored loaded1 0 [timesFive] /\
  flength countArgs <= 1 /\
  exists b' s',
    ReversePipelineBuilder_call (mkReversePipelineBuilder 0) [Fun countArgs]
      loaded1
    = (Ret (RevBuilder b'), s') /\
    stored s' (rb_pipeline b') [countArgs; timesFive].
Proof.
  assert (S0 : stored loaded1 0 [timesFive]) by reflexivity.
  split; [exact S0|]; split; [apply le_S, le_n|].
  destruct (@reverse_builder_arity_dispatch JsVal JUndefined unit
              (mkReversePipelineBuilder 0) [timesFive] loaded1 countArgs S0)
    as (H & _).
  destruct (H (le_S _ _ (le_n 0))) as (b' & s' & E & S' & _).
  now exists b', s'.
Defined.

Lemma terminal_builder_only_finalizes_witness :
  stored loaded1 0 [timesFive] /\
  1 < flength add /\
  exists t e,
    ReversePipelineBuilder_call (mkReversePipelineBuilder 0) [Fun add] loaded1
    = (Ret (RevTerminal t), loaded1) /\
    TerminalPipelineBuilder_call t [Fun plusOne] loaded1 = (Ret e, loaded1) /\
    TerminalPipelineBuilder_call t [] loaded1 = (Ret e, loaded1) /\
    stored loaded1 (ex_pipeline e) [timesFive].
Proof.
  assert (S0 : stored loaded1 0 [timesFive]) by reflexivity.
  split; [exact S0|]; split; [apply le_n|].
  destruct (@terminal_builder_only_finalizes JsVal unit
              (mkReversePipelineBuilder 0) [timesFive] add loaded1 S0 (le_n 2))
    as (t & E & H).
  destruct (H [Fun plusOne] [] tt []) as (e & E1 & E2 & _ & S1).
  exists t, e; repeat split; assumption.
Defined.

Lemma nullish_argument_finalizes_witness :
  eq_null (@Null JsVal unit) = true /\
  PipelineBuilder_call (mkPipelineBuilder 0) [Null] loaded
  = PipelineBuilder_call (mkPipelineBuilder 0) [] loaded /\
  ReversePipelineBuilder_call (mkReversePipelineBuilder 0) [Null] loaded1
  = ReversePipelineBuilder_call (mkReversePipelineBuilder 0) [] loaded1 /\
  Pipe_call (pipe (JNum 7)) [Null] start
  = (Ret (PipeValue (JNum 7)), start).
Proof.
  split; [reflexivity|].
  destruct (@nullish_argument_finalizes JsVal unit Null eq_refl)
    as (Hf & Hr & Hp).
  split; [apply Hf|]; split; [apply Hr | apply Hp].
Defined.

(** * Further properties *)

Section MoreProperties.

Context {V : Type} (undefined : V) {W : Type}.

Implicit Types (s t : State V W) (f g h k func : Fn V W).
Implicit Types (fs gs hs : list (Fn V W)) (a args : list V).

Ltac by_outcome :=
  unfold run_stages; cbn [reduce]; unfold bind, ret;
  repeat match goal with
         | |- context [invoke ?f ?a ?s] =>
             destruct (invoke f a s) as [[?|?] ?]; cbv beta iota
         end;
  reflexivity.

(** ** Runs over a list of stages *)

Lemma bind_ext A B (m : M V W A) (k1 k2 : A -> M V W B) s :
  (forall x t, k1 x t = k2 x t) -> bind m k1 s = bind m k2 s.
Proof.
  intros H; unfold bind; destruct (m s) as [[x|e] t]; [apply H|reflexivity].
Qed.

Lemma run_stages_one f a s : run_stages undefined [f] a s = invoke f a s.
Proof. by_outcome. Qed.

Lemma run_stages_nil_one (v : V) s :
  run_stages undefined (@nil (Fn V W)) [v] s = (Ret v, s).
Proof. reflexivity. Qed.

Lemma run_stages_app fs : forall gs a s,
  fs <> [] ->
  run_stages undefined (fs ++ gs) a s
  = (r <- run_stages undefined fs a ;; run_stages undefined gs [r]) s.
Proof.
  induction fs as [|f rest IH]; intros gs a s Hne; [contradiction|].
  destruct rest as [|f2 rest].
  - simpl app; rewrite run_stages_cons.
    unfold bind; rewrite run_stages_one.
    destruct (invoke f a s) as [[r|x] s1]; reflexivity.
  - change ((f :: f2 :: rest) ++ gs) with (f :: ((f2 :: rest) ++ gs)).
    rewrite run_stages_cons.
    unfold bind; rewrite run_stages_cons; unfold bind.
    destruct (invoke f a s) as [[r|x] s1]; [|reflexivity].
    rewrite IH by discriminate; reflexivity.
Qed.

Lemma run_shaped_one (v : V) evs :
  run_shaped [v] evs ->
  Forall (fun ev : Fn V W * list V => length (snd ev) = 1) evs.
Proof.
  destruct evs as [|ev rest]; simpl; [constructor|].
  intros [E F]; constructor; [now rewrite E | exact F].
Qed.

(** Whatever the outcome, [reduce] has invoked a prefix of its stages, in
    order: all of them when it returns. *)
Lemma reduce_prefix fs : forall a s,
  exists evs rest,
    calls (snd (reduce fs a s)) = calls s ++ evs /\
    fs = map fst evs ++ rest /\
    run_shaped a evs /\
    (forall acc, fst (reduce fs a s) = Ret acc -> rest = []) /\
    (forall x, fst (reduce fs a s) = Throw x -> evs <> []).
Proof.
  induction fs as [|f rest IH]; intros a s.
  - exists [], []; simpl; rewrite app_nil_r.
    repeat split; auto; discriminate.
  - cbn [reduce]; unfold bind.
    pose proof (invoke_calls f a s) as Hc.
    destruct (invoke f a s) as [[r|x] s1]; simpl in Hc.
    + destruct (IH [r] s1) as (evs & rest' & C & E & Sh & R & T).
      exists ((f, a) :: evs), rest'.
      split; [rewrite C, Hc, <- app_assoc; reflexivity|].
      split; [simpl; now rewrite E|].
      split; [split; [reflexivity | now apply run_shaped_one with r]|].
      split; [exact R | discriminate].
    + exists [(f, a)], rest; simpl.
      repeat split; auto; discriminate.
Qed.

(** ** Chains of builder calls *)

Lemma fwd_chain_spec gs : forall (b : PipelineBuilder) s fs,
  stored s (pb_pipeline b) fs ->
  exists b' s' more,
    fwd_chain b s gs b' s' /\
    s' = later s more (world s) (calls s) /\
    stored s' (pb_pipeline b') (fs ++ gs).
Proof.
  induction gs as [|g gs IH]; intros b s fs H.
  - exists b, s, []; rewrite later_nil, app_nil_r.
    repeat split; [constructor | exact H].
  - destruct (PipelineBuilder_add b g H) as (b1 & s1 & E & D & S1).
    destruct (IH b1 s1 _ S1) as (b' & s' & more & C & D' & S').
    exists b', s', ([fs ++ [g]] ++ more).
    split; [econstructor; eassumption|].
    split; [|now rewrite <- app_assoc in S'].
    rewrite D', D, later_later; reflexivity.
Qed.

Lemma rev_chain_spec gs : forall (b : ReversePipelineBuilder) s fs,
  Forall (fun g => flength g <= 1) gs ->
  stored s (rb_pipeline b) fs ->
  exists b' s' more,
    rev_chain b s gs b' s' /\
    s' = later s more (world s) (calls s) /\
    stored s' (rb_pipeline b') (rev gs ++ fs).
Proof.
  induction gs as [|g gs IH]; intros b s fs Hall H.
  - exists b, s, []; rewrite later_nil.
    repeat split; [constructor | exact H].
  - inversion Hall as [|? ? Hg Hall']; subst.
    destruct (ReversePipelineBuilder_add b g H Hg) as (b1 & s1 & E & D & S1).
    destruct (IH b1 s1 _ Hall' S1) as (b' & s' & more & C & D' & S').
    exists b', s', ([g :: fs] ++ more).
    split; [econstructor; eassumption|].
    split; [|simpl; now rewrite <- app_assoc].
    rewrite D', D, later_later; reflexivity.
Qed.

Lemma pipe_chain_spec fs : forall (v : V) s,
  exists out s',
    pipe_chain (pipe v) s fs out s' /\
    run_stages undefined fs [v] s
    = (match out with
       | Ret q => Ret (value q)
       | Throw x => Throw x
       end, s').
Proof.
  induction fs as [|f fs IH]; intros v s.
  - exists (Ret (pipe v)), s; split; [constructor | reflexivity].
  - rewrite run_stages_cons.
    assert (E : Pipe_call (pipe v) [Fun f] s
                = (r <- invoke f [v] ;; ret (PipeNext (pipe r))) s)
      by reflexivity.
    unfold bind in *.
    destruct (invoke f [v] s) as [[r|x] s1].
    + destruct (IH r s1) as (out & s' & C & R).
      exists out, s'; split; [econstructor; eassumption | exact R].
    + exists (Throw x), s1; split; [now apply pipe_chain_throw | reflexivity].
Qed.

(** ** The closure-based implementation *)

Lemma stages_of_nonempty (c : @Closures.Composed V W) :
  Closures.stages_of c <> [].
Proof.
  destruct c; simpl; try discriminate.
  destruct (Closures.stages_of c); discriminate.
Qed.

(** A composed function runs its user functions as an executor would. *)
Lemma Composed_call_stages (c : @Closures.Composed V W) : forall a s,
  Closures.Composed_call c a s
  = run_stages undefined (Closures.stages_of c) a s.
Proof.
  induction c as [f | b c IH | c IH b]; intros a s; cbn.
  - now rewrite run_stages_one.
  - rewrite run_stages_app by apply stages_of_nonempty.
    unfold bind; rewrite IH.
    destruct (run_stages _ _ a s) as [[r|x] s1]; [|reflexivity].
    now rewrite run_stages_one.
  - rewrite run_stages_cons.
    apply bind_ext; intros r t; apply IH.
Qed.

Lemma closures_fwd_chain_spec gs : forall (B : @Closures.PipelineBuilder V W),
  exists B',
    Closures.fwd_chain B gs B' /\
    Closures.stages_of (Closures.pb_a B')
    = Closures.stages_of (Closures.pb_a B) ++ gs.
Proof.
  induction gs as [|g gs IH]; intros B.
  - exists B; split; [constructor | now rewrite app_nil_r].
  - destruct (IH (Closures.pipeline (Closures.FwdArrow g (Closures.pb_a B))))
      as (B' & C & E).
    exists B'; split; [econstructor; [reflexivity | exact C]|].
    rewrite E; simpl; now rewrite <- app_assoc.
Qed.

Lemma closures_rev_chain_spec gs :
  forall (B : @Closures.ReversePipelineBuilder V W),
  Forall (fun g => flength g <= 1) gs ->
  exists B',
    Closures.rev_chain B gs B' /\
    Closures.stages_of (Closures.rb_a B')
    = rev gs ++ Closures.stages_of (Closures.rb_a B).
Proof.
  induction gs as [|g gs IH]; intros B Hall.
  - exists B; split; [constructor | reflexivity].
  - inversion Hall as [|? ? Hg Hall']; subst.
    destruct (IH (Closures.reversePipeline
                    (Closures.RevArrow (Closures.rb_a B) g)) Hall')
      as (B' & C & E).
    exists B'; split.
    + econstructor; [|exact C].
      unfold Closures.ReversePipelineBuilder_call; simpl.
      now destruct (Nat.ltb_spec 1 (flength g)) as [Hlt|_]; [lia|].
    + rewrite E; simpl; now rewrite <- app_assoc.
Qed.

(** ** Building is lazy *)

(** X1.  Starting, extending and finalizing a forward or reverse pipeline
    never throws, invokes no user function and leaves the world alone: the
    only thing such a call may do is allocate arrays.  (A pipe, by contrast,
    invokes the function it is given.) *)
Theorem building_runs_no_user_code f (b : PipelineBuilder)
  (rb : ReversePipelineBuilder) (tb : TerminalPipelineBuilder)
  (xs : list (Arg V W)) s :
  (exists r more,
     pipeline f s = (Ret r, later s more (world s) (calls s))) /\
  (exists r more,
     reversePipeline f s = (Ret r, later s more (world s) (calls s))) /\
  (exists r more,
     PipelineBuilder_call b xs s
     = (Ret r, later s more (world s) (calls s))) /\
  (exists r more,
     ReversePipelineBuilder_call rb xs s
     = (Ret r, later s more (world s) (calls s))) /\
  TerminalPipelineBuilder_call tb xs s = (Ret (makeExec (tb_pipeline tb)), s).
Proof.
  split; [|split; [|split; [|split]]].
  - eexists _, _; apply pipelineBuilder_None.
  - eexists _, _; apply reversePipelineBuilder_None.
  - unfold PipelineBuilder_call; destruct (param0 xs) as [| |func].
    + exists (FwdExec (makeExec (pb_pipeline b))), []; now rewrite later_nil.
    + exists (FwdExec (makeExec (pb_pipeline b))), []; now rewrite later_nil.
    + eexists _, _.
      unfold pipelineBuilder, bind, ret, readArr, alloc, later; simpl.
      reflexivity.
  - unfold ReversePipelineBuilder_call; destruct (param0 xs) as [| |func].
    + exists (RevExec (makeExec (rb_pipeline rb))), []; now rewrite later_nil.
    + exists (RevExec (makeExec (rb_pipeline rb))), []; now rewrite later_nil.
    + destruct (1 <? flength func).
      * eexists _, []; now rewrite later_nil.
      * eexists _, _.
        unfold reversePipelineBuilder, bind, ret, readArr, alloc, later; simpl.
        reflexivity.
  - reflexivity.
Qed.

(** ** What a run invokes *)

(** X2.  A run of a built function allocates nothing and, whatever its
    outcome, invokes a prefix of the stages, each once, in the order of the
    array: the first invocation receives the caller's arguments, every later
    one exactly one argument.  When the run returns, the prefix is the whole
    array; when it throws, at least one stage was invoked. *)
Theorem run_invokes_a_prefix_in_order (e : Exec) fs args s :
  stored s (ex_pipeline e) fs ->
  let out := Exec_call undefined e args s in
  heap (snd out) = heap s /\
  exists evs rest,
    calls (snd out) = calls s ++ evs /\
    fs = map fst evs ++ rest /\
    run_shaped args evs /\
    (forall v, fst out = Ret v -> rest = []) /\
    (forall x, fst out = Throw x -> evs <> []).
Proof.
  intros H out; split; [apply Exec_call_heap|].
  subst out; rewrite (Exec_call_stored undefined e args H).
  destruct (reduce_prefix fs args s) as (evs & rest & C & E & Sh & R & T).
  exists evs, rest.
  unfold run_stages, bind, ret.
  destruct (reduce fs args s) as [[acc|x] s1]; simpl in *.
  - repeat split; auto.
    + intros v _; now apply (R acc).
    + discriminate.
  - repeat split; auto.
    + discriminate.
    + intros y _; now apply (T x).
Qed.

(** ** Pipelines of any length *)



(** X5.  A reverse pipeline is the forward pipeline written backwards:
    supplying [f, g1, ..., gn] to [reversePipeline] and the same functions
    in the opposite order to [pipeline] builds two functions with the same
    behaviour. *)
Theorem reverse_chain_mirrors_forward_chain f gs g0 hs s :
  Forall (fun g => flength g <= 1) gs ->
  rev (f :: gs) = g0 :: hs ->
  exists rb0 s0 rb s1 fb0 s2 fb s3,
    reversePipeline f s = (Ret rb0, s0) /\
    rev_chain rb0 s0 gs rb s1 /\
    pipeline g0 s1 = (Ret fb0, s2) /\
    fwd_chain fb0 s2 hs fb s3 /\
    forall more w c,
      let t := later s3 more w c in
      exists er ef,
        ReversePipelineBuilder_call rb [] t = (Ret (RevExec er), t) /\
        PipelineBuilder_call fb [] t = (Ret (FwdExec ef), t) /\
        forall a, Exec_call undefined er a t = Exec_call undefined ef a t.
Proof.
  intros Hall Hrev.
  destruct (reversePipeline_spec f s) as (rb0 & s0 & E0 & _ & S0).
  destruct (rev_chain_spec rb0 Hall S0) as (rb & s1 & m1 & C1 & _ & S1).
  destruct (pipeline_spec g0 s1) as (fb0 & s2 & E2 & D2 & S2).
  destruct (fwd_chain_spec hs fb0 S2) as (fb & s3 & m3 & C3 & D3 & S3).
  exists rb0, s0, rb, s1, fb0, s2, fb, s3.
  do 4 (split; [assumption|]).
  intros more w c t.
  exists (makeExec (rb_pipeline rb)), (makeExec (pb_pipeline fb)).
  do 2 (split; [reflexivity|]).
  intros a.
  assert (S1' : stored t (rb_pipeline rb) (g0 :: hs)).
  { simpl in Hrev; rewrite <- Hrev.
    subst t; rewrite D3, D2; do 3 apply stored_later; exact S1. }
  rewrite (Exec_call_stored undefined (makeExec (rb_pipeline rb)) a S1').
  symmetry; apply Exec_call_stored, stored_later; exact S3.
Qed.

(** X10.  Reverse builders are persistent too: a reverse builder whose array
    holds [fs] finalizes, at any later moment, to a function that runs [fs],
    and a function of at most one declared parameter supplied to it yields a
    builder holding that function followed by [fs], the first builder's
    array staying as it was. *)
Theorem reverse_builder_is_persistent (rb : ReversePipelineBuilder) fs s :
  stored s (rb_pipeline rb) fs ->
  forall more w c,
    let t := later s more w c in
    (exists e,
       ReversePipelineBuilder_call rb [] t = (Ret (RevExec e), t) /\
       forall a m2 w2 c2,
         Exec_call undefined e a (later t m2 w2 c2)
         = run_stages undefined fs a (later t m2 w2 c2)) /\
    (forall k, flength k <= 1 ->
       exists rb' t',
         ReversePipelineBuilder_call rb [Fun k] t
         = (Ret (RevBuilder rb'), t') /\
         stored t' (rb_pipeline rb') (k :: fs) /\
         stored t' (rb_pipeline rb) fs).
Proof.
  intros H more w c t.
  pose proof (stored_later more w c H) as H'.
  split.
  - exists (makeExec (rb_pipeline rb)); split; [reflexivity|].
    intros a m2 w2 c2.
    apply Exec_call_stored, stored_later; exact H'.
  - intros k Hk.
    destruct (ReversePipelineBuilder_add rb k H' Hk) as (rb' & t' & E & D & S').
    exists rb', t'; split; [exact E|]; split; [exact S'|].
    rewrite D; apply stored_later; exact H'.
Qed.

(** ** Pipes against pipelines *)

(** X6.  A pipe is the eager form of a forward pipeline:
    [pipe(v)(f)(g1)...(gn)()] and [pipeline(f)(g1)...(gn)()(v)] invoke the
    same functions with the same arguments and end with the same value, or
    with the same thrown value at the same stage. *)
Theorem pipe_chain_agrees_with_pipeline (v : V) f gs s :
  exists b0 s0 b s1 e out s2,
    pipeline f s = (Ret b0, s0) /\
    fwd_chain b0 s0 gs b s1 /\
    PipelineBuilder_call b [] s1 = (Ret (FwdExec e), s1) /\
    pipe_chain (pipe v) s1 (f :: gs) out s2 /\
    Exec_call undefined e [v] s1
    = (match out with
       | Ret q => Ret (value q)
       | Throw x => Throw x
       end, s2) /\
    forall q, out = Ret q ->
              Pipe_call q [] s2 = (Ret (PipeValue (value q)), s2).
Proof.
  destruct (pipeline_spec f s) as (b0 & s0 & E0 & _ & S0).
  destruct (fwd_chain_spec gs b0 S0) as (b & s1 & m & C & _ & S1).
  destruct (pipe_chain_spec (f :: gs) v s1) as (out & s2 & P & R).
  exists b0, s0, b, s1, (makeExec (pb_pipeline b)), out, s2.
  split; [exact E0|]; split; [exact C|]; split; [reflexivity|].
  split; [exact P|]; split.
  - rewrite <- R; apply Exec_call_stored; exact S1.
  - intros q _; reflexivity.
Qed.

(** ** The closure-based implementation against the arrays *)

(** X7.  For forward pipelines the two implementations agree: supplied the
    same seed and the same stages, the composed arrow function of the
    closure-based one and the executor of the array-based one behave alike
    on every argument list. *)
Theorem closures_forward_agrees_with_arrays f gs s :
  exists b0 s0 b s1 B c,
    pipeline f s = (Ret b0, s0) /\
    fwd_chain b0 s0 gs b s1 /\
    Closures.fwd_chain (Closures.pipeline (Closures.User f)) gs B /\
    Closures.PipelineBuilder_call B [] = Closures.FwdFn c /\
    forall a more w c',
      let t := later s1 more w c' in
      exists e,
        PipelineBuilder_call b [] t = (Ret (FwdExec e), t) /\
        Exec_call undefined e a t = Closures.Composed_call c a t.
Proof.
  destruct (pipeline_spec f s) as (b0 & s0 & E0 & _ & S0).
  destruct (fwd_chain_spec gs b0 S0) as (b & s1 & m & C & _ & S1).
  destruct (closures_fwd_chain_spec gs (Closures.pipeline (Closures.User f)))
    as (B & CB & EB).
  exists b0, s0, b, s1, B, (Closures.pb_a B).
  split; [exact E0|]; split; [exact C|]; split; [exact CB|].
  split; [reflexivity|].
  intros a more w c' t.
  exists (makeExec (pb_pipeline b)); split; [reflexivity|].
  rewrite Composed_call_stages, EB.
  apply Exec_call_stored, stored_later; exact S1.
Qed.

(** X9.  For reverse pipelines fed functions of at most one declared
    parameter the two implementations agree as well. *)
Theorem closures_reverse_agrees_with_arrays f gs s :
  Forall (fun g => flength g <= 1) gs ->
  exists b0 s0 b s1 B c,
    reversePipeline f s = (Ret b0, s0) /\
    rev_chain b0 s0 gs b s1 /\
    Closures.rev_chain (Closures.reversePipeline (Closures.User f)) gs B /\
    Closures.ReversePipelineBuilder_call B [] = Closures.RevFn c /\
    forall a more w c',
      let t := later s1 more w c' in
      exists e,
        ReversePipelineBuilder_call b [] t = (Ret (RevExec e), t) /\
        Exec_call undefined e a t = Closures.Composed_call c a t.
Proof.
  intros Hall.
  destruct (reversePipeline_spec f s) as (b0 & s0 & E0 & _ & S0).
  destruct (rev_chain_spec b0 Hall S0) as (b & s1 & m & C & _ & S1).
  destruct (closures_rev_chain_spec
              (Closures.reversePipeline (Closures.User f)) Hall)
    as (B & CB & EB).
  exists b0, s0, b, s1, B, (Closures.rb_a B).
  split; [exact E0|]; split; [exact C|]; split; [exact CB|].
  split; [reflexivity|].
  intros a more w c' t.
  exists (makeExec (rb_pipeline b)); split; [reflexivity|].
  rewrite Composed_call_stages, EB.
  apply Exec_call_stored, stored_later; exact S1.
Qed.

(** X8.  In the closure-based implementation a function [b] of more than
    one declared parameter, supplied to a reverse pipeline, does become the
    first stage: the terminal builder, called with anything, hands back a
    function that runs [b] on the argument list and threads its result
    through the stages supplied before, last supplied first. *)
Theorem closures_terminal_runs_multi_arg_first f gs b :
  Forall (fun g => flength g <= 1) gs ->
  1 < flength b ->
  exists B tb,
    Closures.rev_chain (Closures.reversePipeline (Closures.User f)) gs B /\
    Closures.ReversePipelineBuilder_call B [Fun b] = Closures.RevTerminal tb /\
    forall (xs : list (Arg V W)) a s,
      Closures.Composed_call (Closures.TerminalPipelineBuilder_call tb xs) a s
      = (r <- invoke b a ;; run_stages undefined (rev gs ++ [f]) [r]) s.
Proof.
  intros Hall Hb.
  destruct (closures_rev_chain_spec
              (Closures.reversePipeline (Closures.User f)) Hall)
    as (B & CB & EB).
  exists B, (Closures.mkTerminalPipelineBuilder (Closures.rb_a B) b).
  split; [exact CB|]; split.
  - unfold Closures.ReversePipelineBuilder_call; simpl.
    now destruct (Nat.ltb_spec 1 (flength b)) as [_|Hle]; [|lia].
  - intros xs a s; cbn.
    apply bind_ext; intros r t.
    now rewrite Composed_call_stages, EB.
Qed.

End MoreProperties.

Lemma run_invokes_a_prefix_in_order_witness :
  stored loaded 0 [plusOne; boom; timesFive] /\
  exists evs rest,
    calls (snd (Exec_call JUndefined (makeExec 0) [JNum 1] loaded))
    = calls loaded ++ evs /\
    [plusOne; boom; timesFive] = map fst evs ++ rest /\
    run_shaped [JNum 1] evs.
Proof.
  assert (S0 : stored loaded 0 [plusOne; boom; timesFive]) by reflexivity.
  split; [exact S0|].
  destruct (@run_invokes_a_prefix_in_order JsVal JUndefined unit (makeExec 0)
              [plusOne; boom; timesFive] [JNum 1] loaded S0)
    as (_ & evs & rest & C & E & Sh & _).
  now exists evs, rest.
Defined.


Lemma reverse_chain_mirrors_forward_chain_witness :
  Forall (fun g : SampleFn => flength g <= 1) [plusOne] /\
  rev [timesFive; plusOne] = [plusOne; timesFive] /\
  exists rb0 s0 rb s1 fb0 s2 fb s3,
    reversePipeline timesFive start = (Ret rb0, s0) /\
    rev_chain rb0 s0 [plusOne] rb s1 /\
    pipeline plusOne s1 = (Ret fb0, s2) /\
    fwd_chain fb0 s2 [timesFive] fb s3 /\
    forall a,
      Exec_call JUndefined (makeExec (rb_pipeline rb)) a s3
      = Exec_call JUndefined (makeExec (pb_pipeline fb)) a s3.
Proof.
  assert (Hall : Forall (fun g : SampleFn => flength g <= 1) [plusOne])
    by (repeat constructor).
  split; [exact Hall|]; split; [reflexivity|].
  destruct (@reverse_chain_mirrors_forward_chain JsVal JUndefined unit
              timesFive [plusOne] plusOne [timesFive] start Hall eq_refl)
    as (rb0 & s0 & rb & s1 & fb0 & s2 & fb & s3 & E0 & C1 & E2 & C3 & H).
  exists rb0, s0, rb, s1, fb0, s2, fb, s3.
  do 4 (split; [assumption|]).
  destruct (H [] (world s3) (calls s3)) as (er & ef & Er & Ef & R).
  rewrite later_nil in Er, Ef, R.
  inversion Er; inversion Ef; subst er ef; exact R.
Defined.

Lemma reverse_builder_is_persistent_witness :
  stored loaded1 0 [timesFive] /\
  exists rb' t',
    ReversePipelineBuilder_call (mkReversePipelineBuilder 0) [Fun plusOne]
      loaded1
    = (Ret (RevBuilder rb'), t') /\
    stored t' (rb_pipeline rb') [plusOne; timesFive] /\
    stored t' 0 [timesFive].
Proof.
  assert (S0 : stored loaded1 0 [timesFive]) by reflexivity.
  split; [exact S0|].
  destruct (@reverse_builder_is_persistent JsVal JUndefined unit
              (mkReversePipelineBuilder 0) [timesFive] loaded1 S0 [] tt [])
    as (_ & H).
  exact (H plusOne (le_n 1)).
Defined.

Lemma closures_reverse_agrees_with_arrays_witness :
  Forall (fun g : SampleFn => flength g <= 1) [plusOne; countArgs] /\
  exists b0 s0 b s1 B c,
    reversePipeline timesFive start = (Ret b0, s0) /\
    rev_chain b0 s0 [plusOne; countArgs] b s1 /\
    Closures.rev_chain (Closures.reversePipeline (Closures.User timesFive))
      [plusOne; countArgs] B /\
    Closures.ReversePipelineBuilder_call B [] = Closures.RevFn c /\
    forall a,
      Exec_call JUndefined (makeExec (rb_pipeline b)) a s1
      = Closures.Composed_call c a s1.
Proof.
  assert (Hall : Forall (fun g : SampleFn => flength g <= 1)
                   [plusOne; countArgs])
    by (repeat constructor).
  split; [exact Hall|].
  destruct (@closures_reverse_agrees_with_arrays JsVal JUndefined unit
              timesFive [plusOne; countArgs] start Hall)
    as (b0 & s0 & b & s1 & B & c & E0 & C & CB & EB & H).
  exists b0, s0, b, s1, B, c.
  do 4 (split; [assumption|]).
  intros a.
  destruct (H a [] (world s1) (calls s1)) as (e & Ee & R).
  rewrite later_nil in Ee, R.
  inversion Ee; subst e; exact R.
Defined.

Lemma closures_terminal_runs_multi_arg_first_witness :
  Forall (fun g : SampleFn => flength g <= 1) [plusOne] /\
  1 < flength add /\
  exists c,
    Closures.Composed_call c [JNum 1; JNum 2] start
    = (r <- invoke add [JNum 1; JNum 2] ;;
       run_stages JUndefined [plusOne; timesFive] [r]) start /\
    fst (Closures.Composed_call c [JNum 1; JNum 2] start) = Ret (JNum 20).
Proof.
  assert (Hall : Forall (fun g : SampleFn => flength g <= 1) [plusOne])
    by (repeat constructor).
  split; [exact Hall|]; split; [apply le_n|].
  destruct (@closures_terminal_runs_multi_arg_first JsVal JUndefined unit
              timesFive [plusOne] add Hall (le_n 2))
    as (B & tb & _ & _ & H).
  exists (Closures.TerminalPipelineBuilder_call tb []).
  split; [apply H|].
  rewrite H; reflexivity.
Defined.
